(** * toil.jobStores.utils: the retry generator and the deletion log helpers

    A shallow embedding of [src/toil/jobStores/utils.py].

    [retry] is a generator that yields context managers.  The caller drives
    it with the protocol of its docstring,

      for attempt in retry(delays, timeout, predicate):
          with attempt:
              <operation>

    so the embedding is an explicit state machine: the suspended frame of
    the generator, the list [go] that the generator shares with every guard
    it yields, the wall clock, and a trace of what an observer sees (guards
    yielded, predicate calls, log lines, sleeps).  One [step] is either a
    [next()] on the generator or one pass through a [with] block.

    The machinery under the code is Python's, from 3.7 on: a
    [StopIteration] that escapes the frame of a generator reaches its
    caller as a [RuntimeError] (PEP 479), a guard made by
    [@contextmanager] leaves its block through
    [contextlib._GeneratorContextManager.__exit__], and [time.sleep]
    refuses a negative argument and may last longer than asked.

    Numbers: Python's floats and ints are idealised as rationals; the code
    only adds and compares them. *)

From Stdlib Require Import QArith Lqa Bool List ZArith Lia.
From Stdlib Require Ascii String.
Import ListNotations.

(** ** Comparison of rationals as a boolean, as Python's [<] and [>] *)

Definition Qltb (x y : Q) : bool :=
  match (x ?= y)%Q with
  | Lt => true
  | _ => false
  end.

(** ** Exception objects

    The failures of the caller's operation and predicate are opaque to the
    code: it hands them to the predicate and to the logger and tests them
    against the class [Exception].  The machinery under it also tests
    them against [StopIteration] and [RuntimeError], compares them by
    identity and reads their attribute [__cause__].  A value of [exn] is
    one exception object: two values are equal when they are the same
    object. *)
Class Exceptions (exn : Type) : Type := {
  is_Exception : exn -> bool;
  is_StopIteration : exn -> bool;
  is_RuntimeError : exn -> bool;
  cause : exn -> option exn;
  same : forall x y : exn, {x = y} + {x <> y} }.

Module Retry.

Local Open Scope Q_scope.

Section Machine.

Context {exn : Type} {E : Exceptions exn}.

(** What the operation inside a [with] block does. *)
Inductive outcome : Type :=
| Returns
| Raises (e : exn).

(** The two context managers.  [repeated_attempt] closes over its
    argument [delay] and over [expiration], which line 101 assigns once
    before the first guard is made; [predicate] and [go] are closed over
    too and live in the machine. *)
Inductive guard : Type :=
| repeated_attempt (delay expiration : Q)
| single_attempt.

(** Exceptions that the code and the machinery under it make themselves.
    [generator_raised_StopIteration c] is the
    [RuntimeError('generator raised StopIteration')] of PEP 479; its
    [__cause__] is the [StopIteration] that escaped the generator's frame:
    [Some e'] when the caller's predicate raised it, [None] when
    [next(delays)] did on an empty iterator.  [sleep_length_negative] is
    the [ValueError] of [time.sleep], [pop_from_empty_list] the
    [IndexError] of [go.pop()]. *)
Inductive core_exn : Type :=
| generator_raised_StopIteration (c : option exn)
| sleep_length_negative
| pop_from_empty_list.

(** How the caller's [for] loop ends. *)
Inductive result : Type :=
| Exhausted                 (* the generator returned; the loop is over *)
| Propagated (e : exn)      (* the caller's own [e] left the [with] block *)
| CoreRaised (c : core_exn) (* an exception not of the caller's making *).

(** The generator's frame: not started, suspended at one of the two
    [yield] statements with its local variables, or finished. *)
Inductive gen_frame : Type :=
| Created (delays : list Q) (timeout : Q)
| AtYield104 (delays : list Q) (expiration delay : Q)
| AtYield111
| Closed.

Inductive control : Type :=
| CallNext
| InWith (g : guard)
| Ended (r : result).

(** What an observer sees: a guard yielded, [predicate(e)] called,
    [log.info('Got %s, trying again in %is.', e, delay)] called with these
    arguments, [time.sleep(seconds)] begun. *)
Inductive event : Type :=
| Yield (g : guard)
| PredicateCall (e : exn)
| LogInfo (e : exn) (delay : Q)
| Sleep (seconds : Q).

Record machine : Type := Machine {
  frame : gen_frame;
  go : list unit;
  now : Q;
  trace : list event;
  attempts : nat;
  ctl : control }.

Definition set_frame (f : gen_frame) (m : machine) : machine :=
  Machine f (go m) (now m) (trace m) (attempts m) (ctl m).
Definition set_go (g : list unit) (m : machine) : machine :=
  Machine (frame m) g (now m) (trace m) (attempts m) (ctl m).
Definition set_now (t : Q) (m : machine) : machine :=
  Machine (frame m) (go m) t (trace m) (attempts m) (ctl m).
Definition set_attempts (n : nat) (m : machine) : machine :=
  Machine (frame m) (go m) (now m) (trace m) n (ctl m).
Definition set_ctl (c : control) (m : machine) : machine :=
  Machine (frame m) (go m) (now m) (trace m) (attempts m) c.
Definition log_event (ev : event) (m : machine) : machine :=
  Machine (frame m) (go m) (now m) (trace m ++ [ev]) (attempts m) (ctl m).

(** The clock when a sleep is over: [wakeup k t seconds] is the clock at
    which [time.sleep(seconds)] returns in round [k], when line 92 read the
    clock [t].  It is the world's to choose. *)
Definition wakeup_t : Type := nat -> Q -> Q -> Q.

(** [time.sleep(seconds)]: a negative argument is refused with a
    [ValueError] and nothing is slept. *)
Definition time_sleep (wakeup : wakeup_t) (seconds : Q) (m : machine)
  : option machine :=
  if Qltb seconds 0 then None
  else Some (set_now (wakeup (attempts m) (now m) seconds)
                     (log_event (Sleep seconds) m)).

(** [def never(exception): return False] *)
Definition never (exception : exn) : exn + bool := inr false.

Definition default_delays : list Q := [0; 1; 1; 4; 16; 64].
Definition default_timeout : Q := 300.

(** *** The generator *)

Inductive gen_result : Type :=
| GenYield (g : guard)
| GenReturn
| GenRaise (c : core_exn).

(** Lines 103-104: [while go: yield repeated_attempt(delay)]. *)
Definition while_go (go : list unit) (delays : list Q) (expiration delay : Q)
  : gen_frame * gen_result :=
  match go with
  | [] => (Closed, GenReturn)
  | _ :: _ => (AtYield104 delays expiration delay,
               GenYield (repeated_attempt delay expiration))
  end.

(** [next(delays, delay)]: the next element, or the default once the
    iterator is exhausted. *)
Definition next_or (delays : list Q) (default : Q) : Q * list Q :=
  match delays with
  | [] => (default, [])
  | d :: rest => (d, rest)
  end.

(** One [next()] on the generator: run its body up to the next [yield],
    to its end, or to an exception.  On an empty schedule [next(delays)]
    on line 102 raises [StopIteration] inside the generator's frame, and
    the caller of [next()] gets the [RuntimeError] of PEP 479. *)
Definition gen_next (m : machine) : machine * gen_result :=
  match frame m with
  | Created delays timeout =>
      if Qltb 0 timeout then
        let m1 := set_go [tt] m in
        let expiration := now m1 + timeout in
        match delays with
        | [] => (set_frame Closed m1,
                 GenRaise (generator_raised_StopIteration None))
        | delay :: rest =>
            let (f, r) := while_go (go m1) rest expiration delay in
            (set_frame f m1, r)
        end
      else (set_frame AtYield111 m, GenYield single_attempt)
  | AtYield104 delays expiration delay =>
      let (delay', delays') := next_or delays delay in
      let (f, r) := while_go (go m) delays' expiration delay' in
      (set_frame f m, r)
  | AtYield111 => (set_frame Closed m, GenReturn)
  | Closed => (m, GenReturn)
  end.

(** *** The guards *)

Inductive exit_result : Type :=
| ExitNormally
| Suppress
| Raise (e : exn)
| RaiseCore (c : core_exn).

(** [x.__cause__ is value] *)
Definition cause_is (x value : exn) : bool :=
  match cause x with
  | Some c => if same c value then true else false
  | None => false
  end.

(** [__exit__] of a guard whose generator, thrown the failure [value] of
    the [with] block, lets the caller's exception [x] escape.  A
    [StopIteration] escapes as the [RuntimeError] of PEP 479 with [x] as
    its cause; [__exit__] returns false, so that [value] itself goes on,
    when what escapes is [value], or is a [RuntimeError] whose cause is
    [value] and [value] is a [StopIteration]; anything else is raised in
    place of [value]. *)
Definition throw_exit (value x : exn) : exit_result :=
  if is_StopIteration x then
    if is_StopIteration value && (if same x value then true else false)
    then Raise value
    else RaiseCore (generator_raised_StopIteration (Some x))
  else if is_RuntimeError x then
    if same x value then Raise value
    else if is_StopIteration value && cause_is x value then Raise value
    else Raise x
  else
    if same x value then Raise value else Raise x.

(** The predicate is the caller's code: it answers or raises. *)
Definition predicate_t : Type := exn -> exn + bool.

(** Leaving the [with] block of [g] with outcome [o]: the part of the
    context manager after its [yield], and [__exit__] around it. *)
Definition guard_exit (predicate : predicate_t) (wakeup : wakeup_t)
    (g : guard) (o : outcome) (m : machine) : machine * exit_result :=
  match g, o with
  | repeated_attempt delay expiration, Raises e =>
      if is_Exception e then
        if Qltb (now m + delay) expiration then
          let m1 := log_event (PredicateCall e) m in
          match predicate e with
          | inr true =>
              let m2 := log_event (LogInfo e delay) m1 in
              match time_sleep wakeup delay m2 with
              | Some m3 => (m3, Suppress)
              | None => (m2, RaiseCore sleep_length_negative)
              end
          | inr false => (m1, throw_exit e e)
          | inl e' => (m1, throw_exit e e')
          end
        else (m, throw_exit e e)
      else (m, throw_exit e e)
  | repeated_attempt _ _, Returns =>
      match go m with
      | [] => (m, RaiseCore pop_from_empty_list)
      | _ :: _ => (set_go (removelast (go m)) m, ExitNormally)
      end
  | single_attempt, Raises e => (m, throw_exit e e)
  | single_attempt, Returns => (m, ExitNormally)
  end.

(** *** The caller's loop *)

(** The operation of the [k]-th pass through the [with] block, started at
    clock [t]: the clock when the block is left, which is the one line 92
    reads, and the outcome. *)
Definition body_t : Type := nat -> Q -> Q * outcome.

Definition step (predicate : predicate_t) (body : body_t) (wakeup : wakeup_t)
    (m : machine) : machine :=
  match ctl m with
  | CallNext =>
      let (m', r) := gen_next m in
      match r with
      | GenYield g => set_ctl (InWith g) (log_event (Yield g) m')
      | GenReturn => set_ctl (Ended Exhausted) m'
      | GenRaise c => set_ctl (Ended (CoreRaised c)) m'
      end
  | InWith g =>
      let (t, o) := body (attempts m) (now m) in
      let m1 := set_attempts (S (attempts m)) (set_now t m) in
      let (m2, x) := guard_exit predicate wakeup g o m1 in
      match x with
      | ExitNormally | Suppress => set_ctl CallNext m2
      | Raise e => set_ctl (Ended (Propagated e)) m2
      | RaiseCore c => set_ctl (Ended (CoreRaised c)) m2
      end
  | Ended _ => m
  end.

Fixpoint steps (predicate : predicate_t) (body : body_t) (wakeup : wakeup_t)
    (n : nat) (m : machine) : machine :=
  match n with
  | O => m
  | S n' => steps predicate body wakeup n' (step predicate body wakeup m)
  end.

(** [retry(delays, timeout)] makes the generator object and runs none of
    its code; [t0] is the clock at that moment, when the [for] statement
    is entered. *)
Definition retry (delays : list Q) (timeout : Q) (t0 : Q) : machine :=
  Machine (Created delays timeout) [] t0 [] O CallNext.

(** *** What an observer sees *)

Definition is_yield (ev : event) : bool :=
  match ev with Yield _ => true | _ => false end.
Definition is_sleep (ev : event) : bool :=
  match ev with Sleep _ => true | _ => false end.
Definition is_predicate_call (ev : event) : bool :=
  match ev with PredicateCall _ => true | _ => false end.

Definition guards_yielded (m : machine) : nat :=
  List.length (filter is_yield (trace m)).
Definition sleeps (m : machine) : list event :=
  filter is_sleep (trace m).
Definition predicate_calls (m : machine) : list event :=
  filter is_predicate_call (trace m).

End Machine.

Arguments outcome exn : clear implicits.
Arguments core_exn exn : clear implicits.
Arguments result exn : clear implicits.
Arguments control exn : clear implicits.
Arguments event exn : clear implicits.
Arguments machine exn : clear implicits.
Arguments gen_result exn : clear implicits.
Arguments exit_result exn : clear implicits.
Arguments predicate_t exn : clear implicits.
Arguments body_t exn : clear implicits.

(** ** Invariants of the machine

    [from_caller predicate body x]: the exception [x] was raised by the
    caller's operation, or by the caller's predicate applied to such an
    exception. *)

Definition from_caller {exn} (predicate : predicate_t exn) (body : body_t exn)
    (x : exn) : Prop :=
  exists k t t' e,
    body k t = (t', Raises e) /\ (x = e \/ predicate e = inl x).

(** Where an exception of the code's own making comes from: the
    [RuntimeError] without a caller's cause from an empty schedule under
    [timeout > 0], the one with cause [x] from a predicate that raised the
    [StopIteration] [x], the [ValueError] from a negative delay of the
    schedule; [go.pop()] does not fail. *)
Definition core_origin {exn} {E : Exceptions exn} (predicate : predicate_t exn)
    (body : body_t exn) (delays : list Q) (timeout : Q) (c : core_exn exn)
  : Prop :=
  match c with
  | generator_raised_StopIteration None => delays = [] /\ 0 < timeout
  | generator_raised_StopIteration (Some x) =>
      is_StopIteration x = true /\
      exists k t t' e, body k t = (t', Raises e) /\ predicate e = inl x
  | sleep_length_negative => exists d, In d delays /\ d < 0
  | pop_from_empty_list => False
  end.

(** What holds of every machine that [retry delays timeout t0] reaches. *)
Definition safe {exn} {E : Exceptions exn} (predicate : predicate_t exn)
    (body : body_t exn) (delays : list Q) (timeout t0 : Q) (m : machine exn)
  : Prop :=
  match ctl m with
  | CallNext =>
      match frame m with
      | Created delays' timeout' =>
          delays' = delays /\ timeout' = timeout /\ now m = t0
      | AtYield104 rest expiration delay =>
          (go m = [tt] \/ go m = []) /\ expiration = t0 + timeout /\
          0 < timeout /\ In delay delays /\ incl rest delays
      | AtYield111 => ~ 0 < timeout
      | Closed => False
      end
  | InWith (repeated_attempt delay expiration) =>
      go m = [tt] /\ expiration = t0 + timeout /\ 0 < timeout /\
      In delay delays /\
      exists rest, frame m = AtYield104 rest expiration delay /\
                   incl rest delays
  | InWith single_attempt => frame m = AtYield111 /\ ~ 0 < timeout
  | Ended Exhausted => True
  | Ended (Propagated x) => from_caller predicate body x
  | Ended (CoreRaised c) => core_origin predicate body delays timeout c
  end.

(** The delay of round [k], counted from 0, of a schedule: its element at
    [k], or its last one. *)
Definition delay_at (delays : list Q) (k : nat) : Q :=
  nth (Nat.min k (List.length delays - 1)) delays 0.

(** Where the iterator over the schedule stands. *)
Definition on_schedule {exn} (delays : list Q) (m : machine exn)
  : Prop :=
  match frame m with
  | Created _ _ => attempts m = O
  | AtYield104 rest expiration delay =>
      match ctl m with
      | InWith g =>
          rest = skipn (S (attempts m)) delays /\
          delay = delay_at delays (attempts m) /\
          g = repeated_attempt delay expiration
      | CallNext =>
          (1 <= attempts m)%nat /\
          rest = skipn (attempts m) delays /\
          delay = delay_at delays (attempts m - 1)
      | Ended _ => True
      end
  | _ => True
  end.

(** Guards yielded so far, against passes through the [with] block. *)
Definition counted {exn} (m : machine exn) : Prop :=
  match ctl m with
  | InWith _ => guards_yielded m = S (attempts m)
  | _ => guards_yielded m = attempts m
  end.

(** The machine [j] steps after the first [next()] when [timeout > 0] is
    false, in closed form: the guard [single_attempt] is in hand, the
    operation runs once from clock [t0], and the loop is over. *)
Definition single_run {exn} (body : body_t exn) (t0 : Q) (j : nat)
  : machine exn :=
  match j with
  | O => Machine AtYield111 [] t0 [Yield single_attempt] 0 (InWith single_attempt)
  | S j' =>
      match body O t0 with
      | (t, Raises e) =>
          Machine AtYield111 [] t [Yield single_attempt] 1
                  (Ended (Propagated e))
      | (t, Returns) =>
          match j' with
          | O => Machine AtYield111 [] t [Yield single_attempt] 1 CallNext
          | S _ => Machine Closed [] t [Yield single_attempt] 1
                           (Ended Exhausted)
          end
      end
  end.

(** ** The doctests of [retry], run on the machine *)

Module Doctests.

(** Exception objects, told apart by their class and a number. *)
Inductive py_exn : Type :=
| RuntimeError (msg : nat)
| StopIteration (value : nat)
| KeyboardInterrupt.

Definition isinstance_Exception (e : py_exn) : bool :=
  match e with
  | RuntimeError _ | StopIteration _ => true
  | KeyboardInterrupt => false
  end.

Definition isinstance_StopIteration (e : py_exn) : bool :=
  match e with
  | StopIteration _ => true
  | _ => false
  end.

Definition isinstance_RuntimeError (e : py_exn) : bool :=
  match e with
  | RuntimeError _ => true
  | _ => false
  end.

Definition py_exn_same (x y : py_exn) : {x = y} + {x <> y}.
Proof. repeat decide equality. Defined.

#[export] Instance py_exceptions : Exceptions py_exn := {
  is_Exception := isinstance_Exception;
  is_StopIteration := isinstance_StopIteration;
  is_RuntimeError := isinstance_RuntimeError;
  cause := fun _ => None;
  same := py_exn_same }.

Definition true_ (e : py_exn) : py_exn + bool := inr true.
Definition false_ (e : py_exn) : py_exn + bool := inr false.

(** A predicate that raises. *)
Definition raising (e : py_exn) : py_exn + bool := inl KeyboardInterrupt.

(** A predicate that raises a [StopIteration] of its own. *)
Definition stopping (e : py_exn) : py_exn + bool := inl (StopIteration 1).

(** [RuntimeError('foo')] *)
Definition foo : py_exn := RuntimeError 0.

(** An operation that takes [40 ms] and raises [RuntimeError('foo')]. *)
Definition failing : body_t py_exn :=
  fun _ t => (t + (4 # 100), Raises foo).

(** An operation that takes [40 ms] and succeeds. *)
Definition succeeding : body_t py_exn :=
  fun _ t => (t + (4 # 100), Returns).

(** An operation that takes [40 ms] and is interrupted from the
    keyboard. *)
Definition interrupted : body_t py_exn :=
  fun _ t => (t + (4 # 100), Raises KeyboardInterrupt).

(** A sleep that lasts as long as asked, and one that lasts [10 ms]
    longer. *)
Definition punctual : wakeup_t := fun _ t seconds => t + seconds.
Definition late : wakeup_t := fun _ t seconds => t + seconds + (1 # 100).

Definition run (predicate : predicate_t py_exn) (body : body_t py_exn)
    (n : nat) (delays : list Q) (timeout : Q) : machine py_exn :=
  steps predicate body punctual n (retry delays timeout 0).

End Doctests.

End Retry.
(** ** The log helpers of job store deletion *)

Module DeletionLog.

Import Ascii String.
Local Open Scope string_scope.
Local Open Scope list_scope.
Local Open Scope Z_scope.

Inductive level : Type :=
| DEBUG
| INFO
| ERROR.

(** One call on a [logging.Logger]: the level of the method called, the
    format string, its arguments, and the flag [exc_info]. *)
Record record : Type := Record_ {
  levelno : level;
  msg : string;
  args : list string;
  exc_info : bool }.

(** The logger, as the records it has been handed, oldest first. *)
Definition logger : Type := list record.

Definition debug (fmt : string) (a : list string) (log : logger) : logger :=
  log ++ [Record_ DEBUG fmt a false].
Definition info (fmt : string) (a : list string) (log : logger) : logger :=
  log ++ [Record_ INFO fmt a false].
Definition error (fmt : string) (a : list string) (log : logger) : logger :=
  log ++ [Record_ ERROR fmt a false].
(** [Logger.exception] logs at level [ERROR]. *)
Definition exception (fmt : string) (a : list string) (exc : bool)
    (log : logger) : logger :=
  log ++ [Record_ ERROR fmt a exc].

(** The exception handed to [log_component_failure]: the code reads its
    attribute [message]. *)
Record failure : Type := Failure { message : string }.

Definition msg_raised : string :=
  append "The following exception was raised during deletion:"
         (String "010"%char "%s").
Definition msg_giving_up : string :=
  "Too many attempts to delete '%s'. Giving up.".
Definition msg_retrying : string := "Retrying deletion for '%s'...".
Definition msg_deleted : string :=
  "Successfully deleted job store at location '%s'.".
Definition msg_not_found : string :=
  "No job store found at location '%s'.".
Definition msg_with_errors : string :=
  "Completed job store deletion at location '%s' with errors see log for details.".

Definition log_component_failure (e : failure) (log : logger)
    (name : string) (attemptNum maxAttempts : Z) : logger * bool :=
  let log := exception msg_raised [message e] true log in
  if attemptNum >=? maxAttempts then
    (error msg_giving_up [name] log, true)
  else
    (debug msg_retrying [name] log, false).

(** [maxAttempts=5] *)
Definition default_maxAttempts : Z := 5.

Definition log_delete_completed (log : logger) (locator : string)
    (existed failure : bool) : logger :=
  if existed && negb failure then info msg_deleted [locator] log
  else if negb existed then info msg_not_found [locator] log
  else if failure then error msg_with_errors [locator] log
  else log.

End DeletionLog.

(** ** Whole runs of [retry]: what they sleep, how they end *)

Module RetryRuns.

Import Retry.
Local Open Scope Q_scope.

(** The rounds whose failure was suppressed so far.  Inside a [with]
    block every earlier round was; after a block the list [go] tells a
    suppressed failure (still [[None]]) from a success (popped); once the
    loop is over the last round was not. *)
Definition suppressed {exn} (m : machine exn) : nat :=
  match ctl m with
  | InWith _ => attempts m
  | CallNext =>
      match go m with
      | [] => attempts m - 1
      | _ :: _ => attempts m
      end
  | Ended _ => attempts m - 1
  end.

(** The sleeps of [s] suppressed rounds of a schedule, in order. *)
Definition scheduled_sleeps {exn} (delays : list Q) (s : nat)
  : list (event exn) :=
  map (fun k => Sleep (delay_at delays k)) (seq 0 s).

(** The seconds asked of [time.sleep] so far, summed up along the
    trace. *)
Definition total_slept {exn} (m : machine exn) : Q :=
  fold_left (fun acc ev => match ev with
                           | Sleep seconds => acc + seconds
                           | _ => acc
                           end) (trace m) 0.

(** The last pass through the [with] block returned. *)
Definition last_returned {exn} (body : body_t exn) (m : machine exn) : Prop :=
  (1 <= attempts m)%nat /\
  exists t t', body (attempts m - 1)%nat t = (t', Returns).

(** The last pass through the [with] block raised an exception of which
    [P] holds. *)
Definition last_failed {exn} (body : body_t exn) (m : machine exn)
    (P : exn -> Prop) : Prop :=
  (1 <= attempts m)%nat /\
  exists t t' e, body (attempts m - 1)%nat t = (t', Raises e) /\ P e.

(** The books of a run: the sleeps are those of the suppressed rounds, and
    the predicate was called once for each of them and at most once
    more. *)
Definition ledger {exn} (delays : list Q) (m : machine exn) : Prop :=
  sleeps m = scheduled_sleeps delays (suppressed m) /\
  (suppressed m <= List.length (predicate_calls m))%nat /\
  (List.length (predicate_calls m) <= attempts m)%nat /\
  match frame m with
  | Created _ _ => trace m = [] /\ go m = []
  | AtYield111 => go m = []
  | _ => True
  end.

(** How the last round went, for a machine between rounds or at its end. *)
Definition last_outcome {exn} (predicate : predicate_t exn)
    (body : body_t exn) (delays : list Q) (m : machine exn) : Prop :=
  match ctl m with
  | CallNext =>
      match frame m with
      | AtYield104 _ _ _ => go m = [] -> last_returned body m
      | AtYield111 => last_returned body m
      | _ => True
      end
  | InWith _ => True
  | Ended Exhausted => last_returned body m
  | Ended (Propagated x) =>
      last_failed body m (fun e => x = e \/ predicate e = inl x)
  | Ended (CoreRaised (generator_raised_StopIteration None)) =>
      attempts m = O
  | Ended (CoreRaised (generator_raised_StopIteration (Some x))) =>
      last_failed body m (fun e => predicate e = inl x)
  | Ended (CoreRaised sleep_length_negative) =>
      last_failed body m (fun e => predicate e = inr true) /\
      delay_at delays (attempts m - 1) < 0
  | Ended (CoreRaised pop_from_empty_list) => True
  end.

(** The clock against the sleeps, for an operation during which the clock
    does not run backwards and sleeps that last as long as asked or
    longer: the time asked of [time.sleep] has passed on the clock and
    stays below the timeout; under a schedule of delays of at least
    [delta] every sleep was asked to take that long. *)
Definition clocked {exn} (delays : list Q) (timeout t0 delta : Q)
    (m : machine exn) : Prop :=
  t0 + total_slept m <= now m /\
  (0 < timeout -> total_slept m < timeout) /\
  (Forall (fun d => delta <= d) delays ->
   inject_Z (Z.of_nat (List.length (sleeps m))) * delta <= total_slept m).

(** A caller that takes guards from the generator and enters none:
    the results of [n] calls of [next()]. *)
Fixpoint drain {exn} (n : nat) (m : machine exn) : list (gen_result exn) :=
  match n with
  | O => []
  | S n' => let (m', r) := gen_next m in r :: drain n' m'
  end.

End RetryRuns.

(** * Theorems *)

Lemma Qltb_true (x y : Q) : Qltb x y = true <-> (x < y)%Q.
Proof.
  unfold Qltb. rewrite Qlt_alt.
  destruct (x ?= y)%Q; split; intro H; congruence.
Qed.

Lemma Qltb_false (x y : Q) : Qltb x y = false <-> (y <= x)%Q.
Proof.
  rewrite <- not_true_iff_false, Qltb_true.
  split; [apply Qnot_lt_le | apply Qle_not_lt].
Qed.


Module RetryTheory.

Import Retry.
Local Open Scope Q_scope.

Module DoctestRuns.
Import Doctests.

(** Retry for a limited amount of time: [i > 1]. *)
Example retry_limited_time :
  let m := run true_ failing 6 [0] (1 # 10) in
  ctl m = Ended (Propagated foo) /\ attempts m = 3%nat.
Proof. vm_compute. split; reflexivity. Qed.

(** If timeout is 0, do exactly one attempt. *)
Example timeout_zero_one_attempt :
  let m := run never failing 6 default_delays 0 in
  ctl m = Ended (Propagated foo) /\ attempts m = 1%nat.
Proof. vm_compute. split; reflexivity. Qed.

(** Don't retry on success. *)
Example no_retry_on_success :
  let m := run true_ succeeding 6 [0] (1 # 10) in
  ctl m = Ended Exhausted /\ attempts m = 1%nat.
Proof. vm_compute. split; reflexivity. Qed.

(** Don't retry unless predicate returns True. *)
Example no_retry_unless_predicate :
  let m := run false_ failing 6 [0] (1 # 10) in
  ctl m = Ended (Propagated foo) /\ attempts m = 1%nat.
Proof. vm_compute. split; reflexivity. Qed.

End DoctestRuns.

(** *** The iterator over the schedule *)

Lemma skipn_cons_inv (k : nat) (ds : list Q) (x : Q) (r : list Q) :
  skipn k ds = x :: r ->
  (k < List.length ds)%nat /\ nth k ds 0 = x /\ skipn (S k) ds = r.
Proof.
  revert ds. induction k as [|k IH]; intros [|d ds] H; simpl in H;
    try discriminate.
  - injection H as -> ->. simpl. repeat split. lia.
  - destruct (IH ds H) as (Hlt & Hnth & Hskip).
    simpl. repeat split; [lia|assumption|exact Hskip].
Qed.

Lemma skipn_nil_inv (k : nat) (ds : list Q) :
  skipn k ds = [] -> (List.length ds <= k)%nat.
Proof.
  revert ds. induction k as [|k IH]; intros [|d ds] H; simpl in *;
    try discriminate; try lia.
  specialize (IH ds H). lia.
Qed.

Lemma delay_at_inside (ds : list Q) (k : nat) :
  (k < List.length ds)%nat -> delay_at ds k = nth k ds 0.
Proof.
  intro H. unfold delay_at. f_equal. lia.
Qed.

Lemma delay_at_beyond (ds : list Q) (k : nat) :
  (List.length ds <= k)%nat -> delay_at ds k = last ds 0.
Proof.
  intro H. unfold delay_at.
  replace (Nat.min k (List.length ds - 1)) with (List.length ds - 1)%nat
    by lia.
  clear H. induction ds as [|d [|d' ds] IH]; try reflexivity.
  change (last (d :: d' :: ds) 0) with (last (d' :: ds) 0).
  rewrite <- IH. simpl. rewrite Nat.sub_0_r. reflexivity.
Qed.

Lemma delay_at_stays (ds : list Q) (k : nat) :
  (List.length ds <= S k)%nat -> delay_at ds (S k) = delay_at ds k.
Proof.
  intro H. unfold delay_at. f_equal. lia.
Qed.

Section Runs.

Context {exn : Type} {E : Exceptions exn}.
Variable body : body_t exn.
Variable wakeup : wakeup_t.

(** *** Leaving a guard *)

(** The failure of the block, escaping from the guard's generator, goes
    on as it is, whatever its class. *)
Lemma throw_exit_same (e : exn) : throw_exit e e = Raise e.
Proof.
  unfold throw_exit.
  destruct (is_StopIteration e), (is_RuntimeError e), (same e e);
    simpl; try reflexivity; contradiction.
Qed.

(** What leaves the block when the predicate raises [x] on [e]. *)
Lemma throw_exit_cases (e x : exn) :
  throw_exit e x = Raise e \/
  throw_exit e x = Raise x \/
  (throw_exit e x = RaiseCore (generator_raised_StopIteration (Some x)) /\
   is_StopIteration x = true).
Proof.
  unfold throw_exit.
  destruct (is_StopIteration x); [|destruct (is_RuntimeError x)].
  - destruct (is_StopIteration e && (if same x e then true else false));
      auto.
  - destruct (same x e); [auto|].
    destruct (is_StopIteration e && cause_is x e); auto.
  - destruct (same x e); auto.
Qed.

Section OnePredicate.

Variable predicate : predicate_t exn.

Local Notation "'step1'" := (step predicate body wakeup).
Local Notation "'run'" := (steps predicate body wakeup).

(** *** Running the machine *)

Lemma steps_S (n : nat) (m : machine exn) :
  run (S n) m = step1 (run n m).
Proof.
  revert m. induction n as [|n IH]; intro m; [reflexivity|].
  change (run (S (S n)) m) with (run (S n) (step1 m)).
  rewrite IH. reflexivity.
Qed.

Lemma steps_add (a b : nat) (m : machine exn) :
  run (a + b) m = run b (run a m).
Proof.
  revert m. induction a as [|a IH]; intro m; [reflexivity|].
  simpl. apply IH.
Qed.

Lemma step_Ended (m : machine exn) (r : result exn) :
  ctl m = Ended r -> step1 m = m.
Proof. intro H. unfold step. rewrite H. reflexivity. Qed.

Lemma steps_Ended (n : nat) (m : machine exn) (r : result exn) :
  ctl m = Ended r -> run n m = m.
Proof.
  intro H. induction n as [|n IH]; [reflexivity|].
  simpl. rewrite (step_Ended m r H). exact IH.
Qed.

Lemma steps_stable (k j : nat) (m : machine exn) (r : result exn) :
  ctl (run k m) = Ended r -> (k <= j)%nat -> run j m = run k m.
Proof.
  intros H Hle. replace j with (k + (j - k))%nat by lia.
  rewrite steps_add. apply steps_Ended with (r := r). exact H.
Qed.

(** *** The invariants hold along every run *)

Ltac open_machine m :=
  destruct m as [f g t tr a c];
  unfold safe, on_schedule, counted, step, gen_next, guard_exit, while_go,
    time_sleep, guards_yielded in *;
  simpl in *.

Lemma safe_retry (delays : list Q) (timeout t0 : Q) :
  safe predicate body delays timeout t0 (retry delays timeout t0).
Proof. unfold safe. simpl. auto. Qed.

Lemma safe_step (delays : list Q) (timeout t0 : Q) (m : machine exn) :
  safe predicate body delays timeout t0 m ->
  safe predicate body delays timeout t0 (step1 m).
Proof.
  open_machine m. destruct c as [|g0|r]; [| |trivial].
  - (* next() on the generator *)
    destruct f as [ds to|ds ex d| |]; simpl; intro H.
    + destruct H as (-> & -> & ->).
      destruct (Qltb 0 timeout) eqn:Hto; simpl.
      * apply Qltb_true in Hto.
        destruct delays as [|d rest]; simpl; [auto|].
        repeat split; auto.
        exists rest. split; [reflexivity|]. apply incl_tl, incl_refl.
      * split; [reflexivity|]. rewrite <- Qltb_true. congruence.
    + destruct H as (Hgo & -> & Hto & Hin & Hincl).
      assert (Hn : forall d' ds', next_or ds d = (d', ds') ->
                     In d' delays /\ incl ds' delays).
      { intros d' ds'. destruct ds as [|x r]; simpl; intros [= <- <-].
        - auto.
        - split; [apply Hincl; left; reflexivity|].
          intros y Hy. apply Hincl. right. exact Hy. }
      destruct (next_or ds d) as [d' ds'].
      destruct (Hn d' ds' eq_refl) as (Hin' & Hincl').
      destruct Hgo as [-> | ->]; simpl; [|exact I].
      repeat split; auto. exists ds'. auto.
    + exact I.
    + contradiction.
  - (* one pass through the with block *)
    destruct (body a t) as [t' o] eqn:Hb.
    destruct g0 as [d ex|]; simpl; intro H.
    + destruct H as (-> & -> & Hto & Hin & rest & -> & Hincl).
      destruct o as [|e]; simpl; [auto 7|].
      assert (Hsame : from_caller predicate body e).
      { exists a, t, t', e; auto. }
      destruct (is_Exception e); simpl;
        [|rewrite throw_exit_same; exact Hsame].
      destruct (Qltb (t' + d) (t0 + timeout)); simpl;
        [|rewrite throw_exit_same; exact Hsame].
      destruct (predicate e) as [e'|[|]] eqn:Hp; simpl.
      * destruct (throw_exit_cases e e') as [->|[->|(-> & Hstop)]]; simpl.
        -- exact Hsame.
        -- exists a, t, t', e; auto.
        -- split; [exact Hstop|]. exists a, t, t', e; auto.
      * destruct (Qltb d 0) eqn:Hneg; simpl.
        -- exists d. split; [exact Hin|]. apply Qltb_true. exact Hneg.
        -- auto 7.
      * rewrite throw_exit_same. exact Hsame.
    + destruct H as (-> & Hto).
      destruct o as [|e]; simpl; [assumption|].
      rewrite throw_exit_same. exists a, t, t', e; auto.
Qed.

Lemma safe_steps (delays : list Q) (timeout t0 : Q) (n : nat) :
  safe predicate body delays timeout t0 (run n (retry delays timeout t0)).
Proof.
  induction n as [|n IH]; [apply safe_retry|].
  rewrite steps_S. apply safe_step, IH.
Qed.

Lemma on_schedule_retry (delays : list Q) (timeout t0 : Q) :
  on_schedule delays (retry (exn := exn) delays timeout t0).
Proof. reflexivity. Qed.

Lemma on_schedule_step (delays : list Q) (timeout t0 : Q) (m : machine exn) :
  safe predicate body delays timeout t0 m ->
  on_schedule delays m -> on_schedule delays (step1 m).
Proof.
  open_machine m. destruct c as [|g0|r]; [| |trivial].
  - destruct f as [ds to|ds ex d| |]; simpl; intros H S.
    + destruct H as (-> & -> & ->).
      destruct (Qltb 0 timeout); simpl; [|exact I].
      destruct delays as [|d rest]; simpl; [exact I|].
      subst a. repeat split.
    + destruct S as (Ha & -> & ->).
      destruct H as (Hgo & _).
      destruct (skipn a delays) as [|x r] eqn:Hskip; cbn -[skipn].
      * apply skipn_nil_inv in Hskip.
        destruct Hgo as [-> | ->]; cbn -[skipn]; [|exact I].
        repeat split.
        -- change ([] = skipn (S a) delays).
           symmetry. apply skipn_all2. lia.
        -- replace a with (S (a - 1)) at 2 by lia.
           symmetry. apply delay_at_stays. lia.
      * apply skipn_cons_inv in Hskip. destruct Hskip as (Hlt & Hn & Hr).
        destruct Hgo as [-> | ->]; simpl; [|exact I].
        repeat split; [auto|].
        rewrite delay_at_inside by assumption. auto.
    + exact I.
    + exact I.
  - destruct (body a t) as [t' o] eqn:Hb.
    destruct g0 as [d ex|]; simpl; intros H S.
    + destruct H as (-> & -> & Hto & Hin & rest & -> & Hincl).
      destruct S as (-> & -> & _).
      assert (G : (1 <= S a)%nat /\
                  skipn (S a) delays = skipn (S a) delays /\
                  delay_at delays a = delay_at delays (S a - 1)).
      { simpl. rewrite Nat.sub_0_r. repeat split. lia. }
      destruct o as [|e]; simpl; [exact G|].
      destruct (is_Exception e); simpl;
        [|rewrite throw_exit_same; exact I].
      destruct (Qltb _ _); simpl; [|rewrite throw_exit_same; exact I].
      destruct (predicate e) as [e'|[|]]; simpl.
      * destruct (throw_exit_cases e e') as [->|[->|(-> & _)]]; exact I.
      * destruct (Qltb (delay_at delays a) 0); simpl; [exact I|exact G].
      * rewrite throw_exit_same. exact I.
    + destruct H as (-> & _).
      destruct o as [|e]; [|rewrite throw_exit_same]; exact I.
Qed.

Lemma counted_step (delays : list Q) (timeout t0 : Q) (m : machine exn) :
  safe predicate body delays timeout t0 m ->
  counted m -> counted (step1 m).
Proof.
  open_machine m. destruct c as [|g0|r]; [| |trivial].
  - destruct f as [ds to|ds ex d| |]; simpl; intros H C.
    + destruct (Qltb 0 to); simpl.
      * destruct ds as [|d rest]; simpl; [assumption|].
        rewrite filter_app, length_app, C. simpl. lia.
      * rewrite filter_app, length_app, C. simpl. lia.
    + destruct (next_or ds d) as [d' ds'].
      destruct g as [|u g]; simpl; [assumption|].
      rewrite filter_app, length_app, C. simpl. lia.
    + assumption.
    + assumption.
  - destruct (body a t) as [t' o] eqn:Hb.
    destruct g0 as [d ex|]; simpl; intros H C.
    + destruct H as (-> & _).
      destruct o as [|e]; simpl; [assumption|].
      destruct (is_Exception e); simpl;
        [|rewrite throw_exit_same; assumption].
      destruct (Qltb _ _); simpl; [|rewrite throw_exit_same; assumption].
      destruct (predicate e) as [e'|[|]]; simpl.
      * destruct (throw_exit_cases e e') as [->|[->|(-> & _)]]; simpl;
          rewrite filter_app, length_app; simpl; lia.
      * destruct (Qltb d 0); simpl;
          repeat (rewrite filter_app, length_app; simpl); lia.
      * rewrite throw_exit_same. simpl.
        rewrite filter_app, length_app. simpl. lia.
    + destruct o; [|rewrite throw_exit_same]; simpl; assumption.
Qed.

(** Everything that holds of a machine reached from [retry]. *)
Lemma reached (delays : list Q) (timeout t0 : Q) (n : nat) :
  let m := run n (retry delays timeout t0) in
  safe predicate body delays timeout t0 m /\ on_schedule delays m /\
  counted m.
Proof.
  induction n as [|n (Hs & Ho & Hc)].
  - split; [apply safe_retry|]. split; reflexivity.
  - cbv zeta. rewrite steps_S.
    split; [apply safe_step; assumption|].
    split; [eapply on_schedule_step | eapply counted_step]; eassumption.
Qed.

(** *** The branch of [single_attempt] *)

Lemma single_path (delays : list Q) (timeout t0 : Q) (j : nat) :
  ~ 0 < timeout ->
  run (S j) (retry delays timeout t0) = single_run body t0 j.
Proof.
  intro H. rewrite <- Qltb_true in H. apply not_true_is_false in H.
  assert (H1 : step1 (retry delays timeout t0) = single_run body t0 0).
  { unfold step, gen_next. simpl. rewrite H. reflexivity. }
  change (run (S j) (retry delays timeout t0))
    with (run j (step1 (retry delays timeout t0))).
  rewrite H1. clear H1.
  destruct j as [|j]; [reflexivity|].
  unfold single_run. simpl. unfold step. simpl.
  destruct (body O t0) as [t [|e]]; simpl.
  - destruct j as [|j]; [reflexivity|]. simpl.
    apply steps_Ended with (r := Exhausted). reflexivity.
  - rewrite throw_exit_same.
    apply steps_Ended with (r := Propagated e). reflexivity.
Qed.

(** C2: with a timeout of zero, whatever the schedule and the predicate,
    [retry] yields the guard [single_attempt] and no other; a failure of
    the operation inside it, of any class, leaves the [with] block as it
    is; the trace holds that one yield and nothing else, so nothing is
    slept and the predicate is not called. *)
Theorem timeout_zero_single_attempt (delays : list Q) (timeout t0 : Q)
    (j : nat) :
  timeout == 0 ->
  let m := run (S j) (retry delays timeout t0) in
  trace m = [Yield single_attempt] /\
  guards_yielded m = 1%nat /\ sleeps m = [] /\ predicate_calls m = [] /\
  (j = O -> ctl m = InWith single_attempt) /\
  (forall t e, body O t0 = (t, Raises e) -> (1 <= j)%nat ->
     ctl m = Ended (Propagated e) /\ attempts m = 1%nat) /\
  (forall t, body O t0 = (t, Returns) -> (2 <= j)%nat ->
     ctl m = Ended Exhausted /\ attempts m = 1%nat).
Proof.
  intros H m. unfold m. rewrite single_path by (rewrite H; apply Qlt_irrefl).
  assert (G : trace (single_run body t0 j) = [Yield single_attempt]).
  { unfold single_run. destruct j as [|[|j]]; [reflexivity| |];
      destruct (body O t0) as [t [|e]]; reflexivity. }
  unfold guards_yielded, sleeps, predicate_calls. rewrite G.
  repeat (split; [reflexivity|]).
  split; [intros ->; reflexivity|].
  split.
  - intros t e Hb Hj. destruct j as [|j]; [lia|].
    unfold single_run. rewrite Hb. auto.
  - intros t Hb Hj. destruct j as [|[|j]]; try lia.
    unfold single_run. rewrite Hb. auto.
Qed.

(** *** A round that succeeds *)

Lemma round_success (delays : list Q) (timeout t0 : Q) (m : machine exn)
    (g : guard) (t : Q) :
  safe predicate body delays timeout t0 m ->
  ctl m = InWith g ->
  body (attempts m) (now m) = (t, Returns) ->
  (ctl (step1 m) = CallNext /\ trace (step1 m) = trace m /\
   attempts (step1 m) = S (attempts m)) /\
  forall j,
    ctl (run (2 + j) m) = Ended Exhausted /\
    trace (run (2 + j) m) = trace m /\
    attempts (run (2 + j) m) = S (attempts m).
Proof.
  intros Hs Hc Hb.
  assert (Hend : forall m' : machine exn,
             ctl m' = Ended Exhausted -> trace m' = trace m ->
             attempts m' = S (attempts m) ->
             forall j, ctl (run j m') = Ended Exhausted /\
                       trace (run j m') = trace m /\
                       attempts (run j m') = S (attempts m)).
  { intros m' H1 H2 H3 j. rewrite (steps_Ended j m' _ H1). auto. }
  destruct m as [f go0 t1 tr a c]. unfold safe in Hs. simpl in *. subst c.
  match goal with |- context [step1 ?x] => set (m := x) in * end.
  destruct g as [d ex|].
  - destruct Hs as (-> & -> & _ & _ & rest & -> & _).
    assert (E1 : step1 m
                 = Machine (AtYield104 rest (t0 + timeout) d) [] t tr (S a)
                           CallNext).
    { unfold step, guard_exit. simpl. rewrite Hb. reflexivity. }
    assert (E2 : step1 (step1 m)
                 = Machine Closed [] t tr (S a) (Ended Exhausted)).
    { rewrite E1. unfold step, gen_next. simpl.
      destruct (next_or rest d). reflexivity. }
    split; [rewrite E1; auto|]. intro j.
    change (run (2 + j) m) with (run j (step1 (step1 m))).
    rewrite E2. apply Hend; reflexivity.
  - destruct Hs as (-> & _).
    assert (E1 : step1 m
                 = Machine AtYield111 go0 t tr (S a) CallNext).
    { unfold step, guard_exit. simpl. rewrite Hb. reflexivity. }
    assert (E2 : step1 (step1 m)
                 = Machine Closed go0 t tr (S a) (Ended Exhausted)).
    { rewrite E1. reflexivity. }
    split; [rewrite E1; auto|]. intro j.
    change (run (2 + j) m) with (run j (step1 (step1 m))).
    rewrite E2. apply Hend; reflexivity.
Qed.

(** C3: whatever the timeout, the schedule and the predicate, when the
    operation inside the guard in hand returns, the [with] block exits
    normally, the next [next()] ends the generator, and from then on the
    loop is over: no guard beyond this one, no sleep, no event at all,
    and no failure. *)
Theorem success_ends_loop (delays : list Q) (timeout t0 : Q) (n : nat)
    (g : guard) (t : Q) :
  let m := run n (retry delays timeout t0) in
  ctl m = InWith g ->
  body (attempts m) (now m) = (t, Returns) ->
  ctl (step1 m) = CallNext /\
  forall j,
    let m' := run (2 + j) m in
    ctl m' = Ended Exhausted /\
    trace m' = trace m /\
    guards_yielded m' = guards_yielded m /\
    sleeps m' = sleeps m /\
    attempts m' = S (attempts m).
Proof.
  intros m Hc Hb.
  destruct (reached delays timeout t0 n) as (Hs & _ & _). fold m in Hs.
  destruct (round_success delays timeout t0 m g t Hs Hc Hb)
    as ((H1 & _) & H2).
  split; [exact H1|]. intros j m'.
  destruct (H2 j) as (Hctl & Htr & Hat). fold m' in Hctl, Htr, Hat.
  unfold guards_yielded, sleeps. rewrite Htr. auto.
Qed.

(** *** A round whose failure is final *)

Lemma round_failure_final (m : machine exn) (g : guard) (t : Q) (e : exn) :
  ctl m = InWith g ->
  body (attempts m) (now m) = (t, Raises e) ->
  match g with
  | repeated_attempt d ex =>
      is_Exception e = false \/ Qltb (t + d) ex = false \/
      predicate e = inr false
  | single_attempt => True
  end ->
  ctl (step1 m) = Ended (Propagated e) /\
  guards_yielded (step1 m) = guards_yielded m /\
  sleeps (step1 m) = sleeps m /\
  attempts (step1 m) = S (attempts m).
Proof.
  destruct m as [f go0 t1 tr a c]. simpl. intros -> Hb Hg.
  unfold step, guard_exit, guards_yielded, sleeps. simpl. rewrite Hb.
  destruct g as [d ex|]; simpl; [|rewrite throw_exit_same; auto].
  destruct (is_Exception e); simpl; [|rewrite throw_exit_same; auto].
  destruct (Qltb (t + d) ex); simpl; [|rewrite throw_exit_same; auto].
  destruct Hg as [Hg|[Hg|Hg]]; try discriminate.
  rewrite Hg, throw_exit_same. simpl.
  rewrite !filter_app. simpl. rewrite !app_nil_r. auto.
Qed.

(** *** A failing round under [repeated_attempt] *)


(** *** A predicate that always answers no *)

(** C4: under a predicate that answers false to every exception, as the
    default [never] does, and a schedule that holds a delay, [retry]
    yields one guard and no other, whatever the timeout and the delays;
    a failure of the operation inside it leaves the [with] block at once
    and nothing is ever slept. *)
Theorem never_retry_without_predicate (d : Q) (rest : list Q)
    (timeout t0 : Q) (j : nat) :
  (forall e, predicate e = inr false) ->
  let m := run (S j) (retry (d :: rest) timeout t0) in
  guards_yielded m = 1%nat /\ sleeps m = [] /\
  forall t e, body O t0 = (t, Raises e) -> (1 <= j)%nat ->
    ctl m = Ended (Propagated e) /\ attempts m = 1%nat.
Proof.
  intros Hp m. subst m.
  set (m0 := retry (d :: rest) timeout t0).
  destruct (reached (d :: rest) timeout t0 1) as (Hs & _ & _).
  fold m0 in Hs. simpl in Hs.
  assert (E1 : exists g,
             ctl (step1 m0) = InWith g /\ trace (step1 m0) = [Yield g] /\
             attempts (step1 m0) = O /\ now (step1 m0) = t0).
  { unfold m0, step, gen_next. simpl.
    destruct (Qltb 0 timeout); simpl; eauto. }
  destruct E1 as (g & Hc & Htr & Hat & Hnow).
  destruct j as [|j].
  { unfold guards_yielded, sleeps. simpl. fold m0. rewrite Htr.
    repeat split; lia. }
  change (run (S (S j)) m0) with (run (S j) (step1 m0)).
  destruct (body O t0) as [t [|e]] eqn:Hb.
  - rewrite <- Hat, <- Hnow in Hb.
    destruct (round_success _ _ _ _ g t Hs Hc Hb) as ((_ & H1 & _) & H2).
    assert (G : trace (run (S j) (step1 m0)) = [Yield g]).
    { destruct j as [|j]; [simpl; congruence|].
      destruct (H2 j) as (_ & H & _). simpl in H. simpl. congruence. }
    unfold guards_yielded, sleeps. rewrite G.
    repeat split; discriminate.
  - assert (Hb' := Hb). rewrite <- Hat, <- Hnow in Hb'.
    destruct (round_failure_final (step1 m0) g t e Hc Hb')
      as (H1 & H2 & H3 & H4).
    { destruct g; auto. }
    rewrite (steps_stable 1 (S j) (step1 m0) _ H1) by lia.
    change (run 1 (step1 m0)) with (step1 (step1 m0)).
    rewrite H2, H3. unfold guards_yielded, sleeps. rewrite Htr.
    repeat split; [congruence | congruence].
Qed.

(** *** The schedule of delays *)

(** C5: in a run of [retry] with [timeout > 0] over a finite schedule,
    the guard in hand in round [k + 1], that is after [k] passes through
    the [with] block, carries the schedule's element at index [k] while
    the schedule has one, and the schedule's last element in every later
    round; the iterator has then given out [k + 1] elements. *)
Theorem schedule_delay_of_round (delays : list Q) (timeout t0 : Q)
    (n : nat) (g : guard) :
  0 < timeout ->
  let m := run n (retry delays timeout t0) in
  ctl m = InWith g ->
  exists delay,
    g = repeated_attempt delay (t0 + timeout) /\
    frame m
    = AtYield104 (skipn (S (attempts m)) delays) (t0 + timeout) delay /\
    guards_yielded m = S (attempts m) /\
    ((attempts m < List.length delays)%nat ->
       delay = nth (attempts m) delays 0) /\
    ((List.length delays <= attempts m)%nat -> delay = last delays 0).
Proof.
  intros Hto m Hc.
  destruct (reached delays timeout t0 n) as (Hs & Ho & Hn).
  fold m in Hs, Ho, Hn. clearbody m.
  unfold safe, on_schedule, counted in *. rewrite Hc in *.
  destruct g as [d ex|]; [|destruct Hs as (_ & Hs); contradiction].
  destruct Hs as (_ & -> & _ & _ & rest & Hf & _). rewrite Hf in Ho.
  destruct Ho as (-> & -> & _).
  exists (delay_at delays (attempts m)).
  repeat split; try assumption.
  - apply delay_at_inside.
  - apply delay_at_beyond.
Qed.

(** *** Failures of the code itself *)


End OnePredicate.

(** *** Negative timeouts, and predicates past the deadline *)

(** C9: with a timeout below zero, whatever the schedule and the
    predicate, the first [next()] yields the guard [single_attempt], and
    from there on the machine is, step by step, the machine of a run with
    timeout zero, under any other schedule and predicate.  The guard
    catches nothing: a failure of the operation inside it, of any class,
    leaves the [with] block as it is and ends the loop; a success ends the
    generator; the trace holds the one yield and nothing else, and the run
    never ends on an exception of the code's own. *)
Theorem negative_timeout_as_zero (predicate predicate' : predicate_t exn)
    (delays delays' : list Q) (timeout t0 : Q) (j : nat) :
  timeout < 0 ->
  let m := steps predicate body wakeup (S j) (retry delays timeout t0) in
  m = steps predicate' body wakeup (S j) (retry delays' 0 t0) /\
  (j = O -> ctl m = InWith single_attempt) /\
  guards_yielded m = 1%nat /\
  (forall c, ctl m <> Ended (CoreRaised c)) /\
  trace m = [Yield single_attempt] /\
  (forall t e, body O t0 = (t, Raises e) -> (1 <= j)%nat ->
     ctl m = Ended (Propagated e) /\ attempts m = 1%nat) /\
  (forall t, body O t0 = (t, Returns) -> (2 <= j)%nat ->
     ctl m = Ended Exhausted /\ attempts m = 1%nat).
Proof.
  intros Hto m. unfold m.
  rewrite !single_path;
    [|apply Qlt_irrefl|intro H; apply (Qlt_irrefl 0), (Qlt_trans _ _ _ H Hto)].
  split; [reflexivity|].
  assert (G : trace (single_run body t0 j) = [Yield single_attempt]).
  { unfold single_run. destruct j as [|[|j]]; [reflexivity| |];
      destruct (body O t0) as [t [|e]]; reflexivity. }
  unfold guards_yielded. rewrite G.
  split; [intros ->; reflexivity|]. split; [reflexivity|].
  split; [|split; [reflexivity|split]].
  - unfold single_run.
    destruct j as [|[|j]];
      [|destruct (body O t0) as [t [|e]]..]; simpl; intro c; discriminate.
  - intros t e Hb Hj. destruct j as [|j]; [lia|].
    unfold single_run. rewrite Hb. auto.
  - intros t Hb Hj. destruct j as [|[|j]]; try lia.
    unfold single_run. rewrite Hb. auto.
Qed.

(** The deadline test comes first: once it fails, the predicate does not
    enter the step at all. *)
Lemma step_past_deadline (predicate : predicate_t exn) (m : machine exn)
    (d ex t : Q) (e : exn) :
  ctl m = InWith (repeated_attempt d ex) ->
  body (attempts m) (now m) = (t, Raises e) ->
  ex <= t + d ->
  step predicate body wakeup m
  = Machine (frame m) (go m) t (trace m) (S (attempts m))
            (Ended (Propagated e)).
Proof.
  destruct m as [f go0 t1 tr a c]. simpl. intros -> Hb Hd.
  apply Qltb_false in Hd.
  unfold step, guard_exit. simpl. rewrite Hb, Hd.
  destruct (is_Exception e); rewrite throw_exit_same; reflexivity.
Qed.

(** C10: in a run of [retry] with [timeout > 0], when the operation
    inside the guard in hand fails at clock [t] with
    [t + delay >= deadline], the step out of the [with] block is the same
    machine under any other predicate, also one that raises: the failure
    itself leaves the block, the clock is where the operation left it and
    the trace is untouched, so the predicate was not called and nothing
    was slept. *)
Theorem deadline_hides_predicate (predicate predicate' : predicate_t exn)
    (delays : list Q) (timeout t0 : Q) (n : nat) (g : guard) (t : Q)
    (e : exn) :
  0 < timeout ->
  let m := steps predicate body wakeup n (retry delays timeout t0) in
  ctl m = InWith g ->
  body (attempts m) (now m) = (t, Raises e) ->
  exists delay,
    g = repeated_attempt delay (t0 + timeout) /\
    (t0 + timeout <= t + delay ->
       step predicate' body wakeup m
       = step predicate body wakeup m /\
       ctl (step predicate body wakeup m) = Ended (Propagated e) /\
       trace (step predicate body wakeup m) = trace m /\
       now (step predicate body wakeup m) = t /\
       predicate_calls (step predicate body wakeup m)
       = predicate_calls m /\
       sleeps (step predicate body wakeup m) = sleeps m).
Proof.
  intros Hto m Hc Hb.
  destruct (reached predicate delays timeout t0 n) as (Hs & _ & _).
  fold m in Hs. clearbody m.
  unfold safe in Hs. rewrite Hc in Hs.
  destruct g as [d ex|]; [|destruct Hs as (_ & Hs); contradiction].
  destruct Hs as (_ & -> & _).
  exists d. split; [reflexivity|]. intro Hd.
  rewrite (step_past_deadline predicate' m d _ t e Hc Hb Hd).
  rewrite (step_past_deadline predicate m d _ t e Hc Hb Hd).
  repeat split.
Qed.

End Runs.

(** *** The theorems at the runs of the doctests *)

Section AtDoctests.

Import Doctests.

(** Settle the first conjunct by evaluation and keep it as [H]. *)
Ltac evaluated H :=
  match goal with
  | |- ?A /\ _ =>
      assert (H : A)
        by (vm_compute; first [reflexivity | lia | discriminate]);
      split; [exact H|]
  end.



(** [timeout=0]: one attempt, and the failure leaves the block. *)
Lemma timeout_zero_single_attempt_witness :
  let m := steps true_ failing punctual 3 (retry [0] 0 0) in
  0 == 0 /\
  trace m = [Yield single_attempt] /\
  ctl m = Ended (Propagated foo) /\ attempts m = 1%nat.
Proof.
  cbv zeta. evaluated H.
  destruct (timeout_zero_single_attempt failing punctual true_
              [0] 0 0 2 H) as (Htr & _ & _ & _ & _ & Hfail & _).
  split; [exact Htr|].
  apply (Hfail (0 + (4 # 100)) foo); [vm_compute; reflexivity|lia].
Defined.

(** [delays=[0], timeout=.1, predicate=true] and no failure: the loop is
    over after the first round. *)
Lemma success_ends_loop_witness :
  let m := steps true_ succeeding punctual 1 (retry [0] (1 # 10) 0) in
  ctl m = InWith (repeated_attempt 0 (0 + (1 # 10))) /\
  succeeding (attempts m) (now m) = (0 + (4 # 100), Returns) /\
  ctl (steps true_ succeeding punctual 5 m) = Ended Exhausted /\
  guards_yielded (steps true_ succeeding punctual 5 m) = 1%nat.
Proof.
  cbv zeta. evaluated H1. evaluated H2.
  destruct (success_ends_loop succeeding punctual true_
              [0] (1 # 10) 0 1 _ _ H1 H2) as (_ & H).
  specialize (H 3%nat). cbv zeta in H. change (2 + 3)%nat with 5%nat in H.
  destruct H as (Hc & _ & Hg & _).
  split; [exact Hc|]. rewrite Hg. vm_compute. reflexivity.
Defined.

(** The default predicate and the default schedule and timeout. *)
Lemma never_retry_without_predicate_witness :
  let m := steps never failing punctual 4
             (retry default_delays default_timeout 0) in
  (forall e : py_exn, never e = inr false) /\
  guards_yielded m = 1%nat /\ sleeps m = [] /\
  ctl m = Ended (Propagated foo).
Proof.
  cbv zeta.
  assert (H : forall e : py_exn, never e = inr false)
    by (intro e; reflexivity).
  split; [exact H|].
  destruct (never_retry_without_predicate failing punctual
              never 0 [1; 1; 4; 16; 64] default_timeout 0 3 H)
    as (Hg & Hs & Hf).
  split; [exact Hg|]. split; [exact Hs|].
  apply (Hf (0 + (4 # 100)) foo); [vm_compute; reflexivity|lia].
Defined.

(** A schedule of length two: the fourth round runs on its last delay. *)
Lemma schedule_delay_of_round_witness :
  let m := steps true_ failing punctual 7 (retry [0; 1] 300 0) in
  0 < 300 /\
  ctl m = InWith (repeated_attempt 1 (0 + 300)) /\
  attempts m = 3%nat /\
  exists delay,
    repeated_attempt 1 (0 + 300) = repeated_attempt delay (0 + 300) /\
    delay = last [0; 1] 0.
Proof.
  cbv zeta. evaluated H1. evaluated H2. evaluated H3.
  destruct (schedule_delay_of_round failing punctual true_
              [0; 1] 300 0 7 _ H1 H2) as (delay & Hg & _ & _ & _ & Hlast).
  exists delay. split; [exact Hg|].
  apply Hlast. apply Nat.leb_le. reflexivity.
Defined.


(** [timeout=-1] against [timeout=0]. *)
Lemma negative_timeout_as_zero_witness :
  -1 < 0 /\
  steps true_ failing punctual 3 (retry [0] (-1) 0)
  = steps false_ failing punctual 3 (retry [] 0 0) /\
  ctl (steps true_ failing punctual 3 (retry [0] (-1) 0))
  = Ended (Propagated foo).
Proof.
  evaluated H.
  destruct (negative_timeout_as_zero failing punctual true_ false_
              [0] [] (-1) 0 2 H) as (Heq & _ & _ & _ & _ & Hfail & _).
  split; [exact Heq|].
  apply (Hfail (0 + (4 # 100)) foo); [vm_compute; reflexivity|lia].
Defined.

(** [delays=[0], timeout=.1]: the third failure, 120 ms in, is past the
    deadline, and the step is the same under a predicate that raises. *)
Lemma deadline_hides_predicate_witness :
  let m := steps true_ failing punctual 5 (retry [0] (1 # 10) 0) in
  0 < 1 # 10 /\
  ctl m = InWith (repeated_attempt 0 (0 + (1 # 10))) /\
  failing (attempts m) (now m)
  = (0 + (4 # 100) + 0 + (4 # 100) + 0 + (4 # 100), Raises foo) /\
  step raising failing punctual m
  = step true_ failing punctual m.
Proof.
  cbv zeta. evaluated H1. evaluated H2. evaluated H3.
  destruct (deadline_hides_predicate failing punctual
              true_ raising [0] (1 # 10) 0 5 _ _ _ H1 H2 H3)
    as (delay & Hg & H).
  injection Hg as <-.
  apply H. intro Hlt. discriminate Hlt.
Defined.

End AtDoctests.

End RetryTheory.

Module DeletionLogTheory.

Import String DeletionLog.
Local Open Scope Z_scope.

(** C7: [log_component_failure] returns [True] if and only if
    [attemptNum >= maxAttempts], so with the default cap if and only if
    [attemptNum >= 5]; in both cases it hands the logger two records, the
    exception first; when it returns [True] the second is the give-up
    message at level [ERROR], when it returns [False] the retrying
    message at level [DEBUG]. *)
Theorem log_component_failure_gives_up (e : failure) (log : logger)
    (name : string) (attemptNum maxAttempts : Z) :
  let out := log_component_failure e log name attemptNum maxAttempts in
  (snd out = true <-> attemptNum >= maxAttempts) /\
  (snd (log_component_failure e log name attemptNum default_maxAttempts)
   = true <-> attemptNum >= 5) /\
  (snd out = true ->
     fst out = log ++ [Record_ ERROR msg_raised [message e] true;
                       Record_ ERROR msg_giving_up [name] false]) /\
  (snd out = false ->
     fst out = log ++ [Record_ ERROR msg_raised [message e] true;
                       Record_ DEBUG msg_retrying [name] false]).
Proof.
  unfold log_component_failure, default_maxAttempts, exception, error, debug.
  cbv zeta.
  destruct (attemptNum >=? maxAttempts) eqn:Hcap,
           (attemptNum >=? 5) eqn:Hfive; simpl;
    rewrite <- ?app_assoc; simpl;
    repeat split; intros; try reflexivity; try discriminate; lia.
Qed.

(** C8: for every pair of booleans [existed] and [failure],
    [log_delete_completed] hands the logger one record and no more:
    not-found at level [INFO] when [existed] is false, success at level
    [INFO] when [existed] holds and [failure] does not, and
    completed-with-errors at level [ERROR] when both hold; the three
    messages differ from one another. *)
Theorem log_delete_completed_one_message (log : logger) (locator : string)
    (existed failure : bool) :
  log_delete_completed log locator existed failure
  = log ++ [if negb existed then Record_ INFO msg_not_found [locator] false
            else if failure
                 then Record_ ERROR msg_with_errors [locator] false
                 else Record_ INFO msg_deleted [locator] false] /\
  msg_not_found <> msg_deleted /\
  msg_not_found <> msg_with_errors /\
  msg_deleted <> msg_with_errors.
Proof.
  split; [destruct existed, failure; reflexivity|].
  repeat split; discriminate.
Qed.

End DeletionLogTheory.

Module RetryRunsTheory.

Import Retry RetryRuns RetryTheory.
Local Open Scope Q_scope.

Lemma scheduled_sleeps_S {exn} (delays : list Q) (s : nat) :
  scheduled_sleeps (exn := exn) delays (S s)
  = scheduled_sleeps delays s ++ [Sleep (delay_at delays s)].
Proof.
  unfold scheduled_sleeps. rewrite seq_S, map_app. reflexivity.
Qed.

Section Books.

Context {exn : Type} {E : Exceptions exn}.
Variable body : body_t exn.
Variable wakeup : wakeup_t.
Variable predicate : predicate_t exn.
Variables (delays : list Q) (timeout t0 : Q).

Local Notation "'step1'" := (step predicate body wakeup).
Local Notation "'run'" := (steps predicate body wakeup).

Ltac open_books m :=
  destruct m as [f g t tr a c];
  unfold safe, on_schedule, ledger, last_outcome, last_returned, last_failed,
    suppressed, sleeps, predicate_calls, step, gen_next, guard_exit,
    while_go, time_sleep in *;
  simpl in *.

Lemma ledger_retry : ledger delays (retry (exn := exn) delays timeout t0).
Proof.
  unfold ledger. simpl. repeat split; auto.
Qed.

Lemma ledger_step (m : machine exn) :
  safe predicate body delays timeout t0 m ->
  on_schedule delays m ->
  ledger delays m -> ledger delays (step1 m).
Proof.
  open_books m. destruct c as [|g0|r]; [| |intros _ _ H; exact H].
  - destruct f as [ds to|ds ex d| |]; simpl; intros H S (L1 & L2 & L3 & L4).
    + destruct H as (-> & -> & ->). destruct L4 as (-> & ->). subst a.
      destruct (Qltb 0 timeout); simpl.
      * destruct delays as [|d rest]; simpl; repeat split; auto.
      * repeat split; auto.
    + destruct H as (Hgo & _).
      destruct (next_or _ _) as [d' ds'] eqn:Hn.
      destruct Hgo as [-> | ->]; simpl.
      * rewrite !filter_app, !app_nil_r. simpl. repeat split; auto.
      * repeat split; auto.
    + subst g. auto.
    + contradiction.
  - destruct (body a t) as [t' o] eqn:Hb.
    destruct g0 as [d ex|]; simpl; intros H S (L1 & L2 & L3 & L4).
    + destruct H as (-> & -> & Hto & Hin & rest & -> & Hincl).
      destruct S as (-> & -> & _).
      destruct o as [|e]; simpl; rewrite ?Nat.sub_0_r;
        [repeat split; auto|].
      destruct (is_Exception e); simpl; rewrite ?throw_exit_same; simpl;
        rewrite ?Nat.sub_0_r; [|repeat split; auto].
      destruct (Qltb _ _) eqn:Hlt; simpl; rewrite ?throw_exit_same; simpl;
        rewrite ?Nat.sub_0_r; [|repeat split; auto].
      destruct (predicate e) as [e'|[|]]; simpl.
      * destruct (throw_exit_cases e e') as [->|[->|(-> & _)]]; simpl;
          rewrite ?filter_app, ?length_app; simpl;
          rewrite ?app_nil_r, ?Nat.sub_0_r; repeat split; auto; lia.
      * destruct (Qltb (delay_at delays a) 0); simpl;
          rewrite ?filter_app, ?length_app; simpl;
          rewrite ?app_nil_r, ?Nat.sub_0_r.
        -- repeat split; auto; lia.
        -- rewrite scheduled_sleeps_S, L1. repeat split; auto; lia.
      * rewrite ?throw_exit_same. simpl.
        rewrite ?filter_app, ?length_app; simpl;
          rewrite ?app_nil_r, ?Nat.sub_0_r. repeat split; auto; lia.
    + destruct H as (-> & _). subst g.
      destruct o as [|e]; simpl; rewrite ?throw_exit_same; simpl;
        rewrite ?Nat.sub_0_r; repeat split; auto.
Qed.

Lemma last_outcome_retry :
  last_outcome predicate body delays (retry (exn := exn) delays timeout t0).
Proof. exact I. Qed.

Lemma last_outcome_step (m : machine exn) :
  safe predicate body delays timeout t0 m ->
  on_schedule delays m ->
  last_outcome predicate body delays m ->
  last_outcome predicate body delays (step1 m).
Proof.
  open_books m. destruct c as [|g0|r]; [| |intros _ _ H; exact H].
  - destruct f as [ds to|ds ex d| |]; simpl; intros H S L.
    + destruct (Qltb 0 to); simpl; [|exact I].
      destruct ds as [|d rest]; [exact S|exact I].
    + destruct (next_or ds d) as [d' ds'].
      destruct g as [|u g]; simpl; auto.
    + exact L.
    + contradiction.
  - destruct (body a t) as [t' o] eqn:Hb.
    assert (Hret : o = Returns ->
              (1 <= S a)%nat /\
              exists t1 t2, body (S a - 1)%nat t1 = (t2, Returns)).
    { intros ->. split; [lia|]. exists t, t'.
      simpl. rewrite Nat.sub_0_r. exact Hb. }
    assert (Hrai : forall e (P : exn -> Prop), o = Raises e -> P e ->
              (1 <= S a)%nat /\
              exists t1 t2 e1, body (S a - 1)%nat t1 = (t2, Raises e1) /\
                               P e1).
    { intros e P -> Hx. split; [lia|]. exists t, t', e.
      simpl. rewrite Nat.sub_0_r. auto. }
    simpl in Hret, Hrai.
    destruct g0 as [d ex|]; simpl; intros H S _.
    + destruct H as (-> & _ & _ & _ & rest & -> & _).
      destruct S as (_ & -> & _).
      destruct o as [|e]; simpl; [auto|].
      assert (Hsame : (1 <= S a)%nat /\
                exists t1 t2 e1, body (a - 0)%nat t1 = (t2, Raises e1) /\
                  (e = e1 \/ predicate e1 = inl e)).
      { apply (Hrai e (fun e1 => e = e1 \/ predicate e1 = inl e)); auto. }
      destruct (is_Exception e); simpl; rewrite ?throw_exit_same; simpl;
        [|exact Hsame].
      destruct (Qltb _ _); simpl; rewrite ?throw_exit_same; simpl;
        [|exact Hsame].
      destruct (predicate e) as [e'|[|]] eqn:Hp; simpl.
      * destruct (throw_exit_cases e e') as [->|[->|(-> & _)]]; simpl.
        -- exact Hsame.
        -- apply (Hrai e (fun e1 => e' = e1 \/ predicate e1 = inl e')); auto.
        -- apply (Hrai e (fun e1 => predicate e1 = inl e')); auto.
      * destruct (Qltb (delay_at delays a) 0) eqn:Hneg; simpl.
        -- split; [apply (Hrai e (fun e1 => predicate e1 = inr true)); auto|].
           rewrite Nat.sub_0_r. apply Qltb_true. exact Hneg.
        -- discriminate.
      * rewrite ?throw_exit_same. exact Hsame.
    + destruct H as (-> & _).
      destruct o as [|e]; simpl; rewrite ?throw_exit_same; simpl; [auto|].
      apply (Hrai e (fun e1 => e = e1 \/ predicate e1 = inl e)); auto.
Qed.

(** Every machine reached from [retry] keeps its books. *)
Lemma books (n : nat) :
  let m := run n (retry delays timeout t0) in
  ledger delays m /\ last_outcome predicate body delays m.
Proof.
  induction n as [|n (Hl & Ho)].
  - split; [apply ledger_retry | apply last_outcome_retry].
  - cbv zeta. rewrite steps_S.
    destruct (reached body wakeup predicate delays timeout t0 n)
      as (Hs & Hsch & _).
    split; [apply ledger_step | apply last_outcome_step]; assumption.
Qed.

Lemma length_scheduled_sleeps (s : nat) :
  List.length (scheduled_sleeps (exn := exn) delays s) = s.
Proof.
  unfold scheduled_sleeps. rewrite length_map, length_seq. reflexivity.
Qed.

(** *** Guards, attempts, predicate calls and sleeps *)

(** X1: along every run of [retry], each guard yielded is entered once
    before the next one is asked for: the guards yielded are as many as
    the passes through the [with] block, plus the one in hand; the
    predicate was called at most once per pass, and every sleep came after
    a call of the predicate. *)
Theorem one_attempt_per_guard (n : nat) :
  let m := run n (retry delays timeout t0) in
  guards_yielded m
  = match ctl m with
    | InWith _ => S (attempts m)
    | _ => attempts m
    end /\
  (List.length (sleeps m) <= List.length (predicate_calls m))%nat /\
  (List.length (predicate_calls m) <= attempts m)%nat.
Proof.
  intro m.
  destruct (reached body wakeup predicate delays timeout t0 n)
    as (_ & _ & Hc).
  destruct (books n) as ((L1 & L2 & L3 & _) & _).
  fold m in Hc, L1, L2, L3. clearbody m.
  split; [unfold counted in Hc; destruct (ctl m); exact Hc|].
  split; [|exact L3].
  rewrite L1, length_scheduled_sleeps. exact L2.
Qed.

(** X2: along every run of [retry], the sleeps so far are the delays of
    the schedule in its order, the last one repeated: the sleep number [k],
    counted from 0, lasts the schedule's element at [k], or its last
    element once the schedule is used up.  Inside a [with] block there was
    one sleep for each earlier pass; when the loop is over, one for each
    pass but the last. *)
Theorem sleeps_follow_schedule (n : nat) :
  let m := run n (retry delays timeout t0) in
  sleeps m
  = map (fun k => Sleep (nth (Nat.min k (List.length delays - 1)) delays 0))
        (seq 0 (List.length (sleeps m))) /\
  (forall g, ctl m = InWith g -> List.length (sleeps m) = attempts m) /\
  (forall r, ctl m = Ended r ->
     List.length (sleeps m) = (attempts m - 1)%nat).
Proof.
  intro m. destruct (books n) as ((L1 & _) & _). fold m in L1. clearbody m.
  rewrite L1 at 1. rewrite L1, length_scheduled_sleeps.
  split; [reflexivity|].
  unfold suppressed. split; [intros g ->|intros r ->]; reflexivity.
Qed.

(** *** How a run ends *)

(** X4: when the caller's loop over [retry] ends normally, the last pass
    through the [with] block returned: the loop never ends quietly on a
    failed attempt, and never without an attempt. *)
Theorem normal_end_means_success (n : nat) :
  let m := run n (retry delays timeout t0) in
  ctl m = Ended Exhausted ->
  (1 <= attempts m)%nat /\
  exists t t', body (attempts m - 1)%nat t = (t', Returns).
Proof.
  intros m Hc. destruct (books n) as (_ & L). fold m in L.
  unfold last_outcome in L. rewrite Hc in L. exact L.
Qed.


(** *** Failures that are not retried *)

(** X6: in a run of [retry], at any timeout, a failure that is not an
    instance of [Exception] is never retried: whatever the predicate, the
    deadline and the guard, it leaves the [with] block as it is; the
    predicate is not called, nothing is logged or slept, and [go] is not
    popped. *)
Theorem base_exception_not_caught (n : nat) (g : guard) (t : Q) (e : exn) :
  let m := run n (retry delays timeout t0) in
  ctl m = InWith g ->
  body (attempts m) (now m) = (t, Raises e) ->
  is_Exception e = false ->
  step1 m
  = Machine (frame m) (go m) t (trace m) (S (attempts m))
            (Ended (Propagated e)) /\
  forall j, run j (step1 m) = step1 m.
Proof.
  intros m Hc Hb He. clearbody m.
  assert (Est : step1 m
              = Machine (frame m) (go m) t (trace m) (S (attempts m))
                        (Ended (Propagated e))).
  { destruct m as [f g0 t1 tr a c]. simpl in *. subst c.
    unfold step, guard_exit. simpl. rewrite Hb.
    destruct g as [d ex|]; [rewrite He|]; rewrite throw_exit_same;
      reflexivity. }
  split; [exact Est|]. intro j.
  apply steps_Ended with (r := Propagated e). rewrite Est. reflexivity.
Qed.

Lemma cause_is_true (x value : exn) :
  cause_is x value = true <-> cause x = Some value.
Proof.
  unfold cause_is. destruct (cause x) as [c|]; [|split; discriminate].
  destruct (same c value) as [->|Hne]; split; intro H;
    try reflexivity; try discriminate.
  injection H as ->. contradiction.
Qed.

(** X7: in a run of [retry] with [timeout > 0], when the operation fails
    with an exception [e] before the deadline and the predicate itself
    raises [e'] on it, the loop is over and nothing is logged or slept.
    What leaves the [with] block is [e'], with three exceptions made by
    the guard's machinery: a [StopIteration] other than [e] leaves as the
    [RuntimeError] of PEP 479 with [e'] as its cause; when the predicate
    raises [e] itself, or a [RuntimeError] whose cause is [e] while [e] is
    a [StopIteration], the failure [e] goes on in place of [e']. *)
Theorem predicate_failure_propagates (n : nat) (g : guard) (t : Q)
    (e e' : exn) :
  0 < timeout ->
  let m := run n (retry delays timeout t0) in
  ctl m = InWith g ->
  body (attempts m) (now m) = (t, Raises e) ->
  is_Exception e = true ->
  predicate e = inl e' ->
  exists delay,
    g = repeated_attempt delay (t0 + timeout) /\
    (t + delay < t0 + timeout ->
     (exists r,
        step1 m
        = Machine (frame m) (go m) t (trace m ++ [PredicateCall e])
                  (S (attempts m)) (Ended r)) /\
     (is_StopIteration e' = false ->
      is_RuntimeError e' = false \/ is_StopIteration e = false \/
      cause e' <> Some e ->
      ctl (step1 m) = Ended (Propagated e')) /\
     (is_StopIteration e' = true -> e' <> e ->
      ctl (step1 m)
      = Ended (CoreRaised (generator_raised_StopIteration (Some e')))) /\
     (e' = e -> ctl (step1 m) = Ended (Propagated e)) /\
     (is_StopIteration e' = false -> is_RuntimeError e' = true ->
      is_StopIteration e = true -> cause e' = Some e ->
      ctl (step1 m) = Ended (Propagated e))).
Proof.
  intros Hto m Hc Hb He Hp.
  destruct (reached body wakeup predicate delays timeout t0 n)
    as (Hs & _ & _).
  fold m in Hs. clearbody m.
  unfold safe in Hs. rewrite Hc in Hs.
  destruct g as [d ex|]; [|destruct Hs as (_ & Hs); contradiction].
  destruct Hs as (_ & -> & _).
  exists d. split; [reflexivity|]. intro Hlt. apply Qltb_true in Hlt.
  destruct m as [f g0 t1 tr a c]. simpl in *. subst c.
  unfold step, guard_exit. simpl. rewrite Hb, He, Hlt, Hp. simpl.
  split; [|split; [|split; [|split]]].
  - destruct (throw_exit_cases e e') as [->|[->|(-> & _)]]; simpl;
      eexists; reflexivity.
  - intros Hs1 Hor. unfold throw_exit. rewrite Hs1.
    destruct (is_RuntimeError e') eqn:Hr.
    + destruct (same e' e) as [->|Hne]; [reflexivity|].
      destruct (is_StopIteration e) eqn:Hse; simpl; [|reflexivity].
      destruct (cause_is e' e) eqn:Hci; [|reflexivity].
      apply cause_is_true in Hci.
      destruct Hor as [H|[H|H]]; try discriminate. contradiction.
    + destruct (same e' e) as [->|Hne]; reflexivity.
  - intros Hs1 Hne. unfold throw_exit. rewrite Hs1.
    destruct (same e' e) as [->|_]; [contradiction|].
    rewrite andb_false_r. reflexivity.
  - intros ->. rewrite throw_exit_same. reflexivity.
  - intros Hs1 Hr Hse Hca. unfold throw_exit. rewrite Hs1, Hr, Hse.
    apply cause_is_true in Hca. rewrite Hca.
    destruct (same e' e); reflexivity.
Qed.

(** *** The clock, the sleeps and the timeout *)

Section Clock.

(** The clock does not run backwards while the operation runs. *)
Hypothesis clock_forward : forall k t, t <= fst (body k t).

(** A sleep lasts as long as asked, or longer. *)
Hypothesis sleep_lasts :
  forall k t seconds, 0 <= seconds -> t + seconds <= wakeup k t seconds.

Lemma inject_Z_of_nat_S (k : nat) :
  inject_Z (Z.of_nat (S k)) == inject_Z (Z.of_nat k) + 1.
Proof.
  rewrite Nat2Z.inj_succ. unfold Z.succ. rewrite inject_Z_plus. reflexivity.
Qed.

Lemma clocked_retry (delta : Q) :
  clocked delays timeout t0 delta (retry (exn := exn) delays timeout t0).
Proof.
  unfold clocked, total_slept. simpl. unfold inject_Z.
  repeat split; auto; lra.
Qed.

Lemma clocked_step (delta : Q) (m : machine exn) :
  safe predicate body delays timeout t0 m ->
  clocked delays timeout t0 delta m ->
  clocked delays timeout t0 delta (step1 m).
Proof.
  destruct m as [f g t tr a c].
  unfold safe, clocked, total_slept, sleeps, step, gen_next,
    guard_exit, while_go, time_sleep. simpl.
  destruct c as [|g0|r]; [| |intros _ H; exact H].
  - destruct f as [ds to|ds ex d| |]; simpl; intros H (K1 & K2 & K3).
    + destruct (Qltb 0 to); simpl.
      * destruct ds as [|d rest]; simpl;
          rewrite ?fold_left_app, ?filter_app, ?app_nil_r; simpl;
          rewrite ?app_nil_r; auto.
      * rewrite ?fold_left_app, ?filter_app, ?app_nil_r; simpl;
          rewrite ?app_nil_r; auto.
    + destruct (next_or ds d) as [d' ds'].
      destruct g as [|u g]; simpl;
        rewrite ?fold_left_app, ?filter_app; simpl;
        rewrite ?app_nil_r; auto.
    + auto.
    + contradiction.
  - destruct (body a t) as [t' o] eqn:Hb.
    assert (Ht : t <= t').
    { generalize (clock_forward a t). rewrite Hb. auto. }
    assert (Hkeep : forall x, x <= t -> x <= t') by (intros; lra).
    destruct g0 as [d ex|]; simpl; intros H (K1 & K2 & K3).
    + destruct H as (-> & -> & Hto & Hin & rest & -> & _).
      specialize (Hkeep _ K1).
      destruct o as [|e]; simpl; [repeat split; auto|].
      destruct (is_Exception e); simpl; rewrite ?throw_exit_same; simpl;
        [|repeat split; auto].
      destruct (Qltb _ _) eqn:Hlt; simpl; rewrite ?throw_exit_same; simpl;
        [|repeat split; auto].
      apply Qltb_true in Hlt.
      destruct (predicate e) as [e'|[|]]; simpl.
      * destruct (throw_exit_cases e e') as [->|[->|(-> & _)]]; simpl;
          rewrite ?fold_left_app, ?filter_app, ?length_app; simpl;
          rewrite ?app_nil_r, ?Nat.add_0_r; repeat split; auto.
      * destruct (Qltb d 0) eqn:Hneg; simpl;
          rewrite ?fold_left_app, ?filter_app, ?length_app; simpl;
          rewrite ?app_nil_r, ?Nat.add_0_r.
        -- repeat split; auto.
        -- apply Qltb_false in Hneg.
           pose proof (sleep_lasts (S a) t' d Hneg) as Hw.
           rewrite Nat.add_1_r, inject_Z_of_nat_S.
           specialize (K2 Hto).
           split; [lra|]. split; [intros _; lra|].
           intro Hdelta. specialize (K3 Hdelta).
           rewrite Forall_forall in Hdelta. specialize (Hdelta d Hin).
           rewrite Qmult_plus_distr_l, Qmult_1_l.
           apply Qplus_le_compat; assumption.
      * rewrite ?fold_left_app, ?filter_app, ?length_app; simpl;
          rewrite ?app_nil_r, ?Nat.add_0_r. repeat split; auto.
    + specialize (Hkeep _ K1).
      destruct o as [|e]; simpl; rewrite ?throw_exit_same; simpl;
        repeat split; auto.
Qed.

Lemma clocked_steps (delta : Q) (n : nat) :
  clocked delays timeout t0 delta (run n (retry delays timeout t0)).
Proof.
  induction n as [|n IH]; [apply clocked_retry|].
  rewrite steps_S.
  destruct (reached body wakeup predicate delays timeout t0 n)
    as (Hs & _ & _).
  apply clocked_step; assumption.
Qed.

(** X8: in a run of [retry] with [timeout > 0] around an operation during
    which the clock does not run backwards, with sleeps that last as long
    as asked or longer, the seconds asked of [time.sleep] so far and the
    start of the loop lie behind the clock, and all the sleeps asked for
    together last less than the timeout. *)
Theorem total_slept_below_timeout (n : nat) :
  0 < timeout ->
  let m := run n (retry delays timeout t0) in
  t0 + total_slept m <= now m /\ total_slept m < timeout.
Proof.
  intros Hto m. destruct (clocked_steps 0 n) as (K1 & K2 & _).
  fold m in K1, K2. auto.
Qed.

End Clock.

Lemma gen_next_attempts (m : machine exn) :
  attempts (fst (gen_next m)) = attempts m.
Proof.
  unfold gen_next, while_go.
  destruct (frame m) as [ds to|ds ex d| |]; simpl; try reflexivity.
  - destruct (Qltb 0 to); [|reflexivity]. destruct ds; reflexivity.
  - destruct (next_or ds d). destruct (go m); reflexivity.
Qed.

Lemma guard_exit_attempts (g : guard) (o : outcome exn) (m : machine exn) :
  attempts (fst (guard_exit predicate wakeup g o m)) = attempts m.
Proof.
  unfold guard_exit, time_sleep.
  destruct g as [d ex|], o as [|e]; try reflexivity.
  - destruct (go m); reflexivity.
  - destruct (is_Exception e); [|reflexivity].
    destruct (Qltb _ _); [|reflexivity].
    destruct (predicate e) as [e'|[|]]; try reflexivity.
    destruct (Qltb d 0); reflexivity.
Qed.

Lemma step_CallNext (m : machine exn) :
  ctl m = CallNext ->
  attempts (step1 m) = attempts m /\
  ((exists r, ctl (step1 m) = Ended r) \/
   (exists g, ctl (step1 m) = InWith g)).
Proof.
  intro Hc. unfold step. rewrite Hc.
  pose proof (gen_next_attempts m) as Ha.
  destruct (gen_next m) as [m' r]. simpl in Ha.
  destruct r; simpl; eauto.
Qed.

Lemma step_InWith (m : machine exn) (g : guard) :
  ctl m = InWith g ->
  attempts (step1 m) = S (attempts m) /\
  ((exists r, ctl (step1 m) = Ended r) \/ ctl (step1 m) = CallNext).
Proof.
  intro Hc. unfold step. rewrite Hc.
  destruct (body (attempts m) (now m)) as [t o].
  match goal with
  | |- context [guard_exit _ _ g o ?m1] =>
      pose proof (guard_exit_attempts g o m1) as Ha;
      destruct (guard_exit predicate wakeup g o m1) as [m2 x]
  end.
  simpl in Ha. destruct x; simpl; eauto.
Qed.

(** After an odd number of steps the machine is inside a [with] block,
    with all earlier rounds behind it, or at its end. *)
Lemma rounds_progress (k : nat) :
  let m := run (2 * k + 1) (retry delays timeout t0) in
  (exists r, ctl m = Ended r /\ (attempts m <= k)%nat) \/
  (exists g, ctl m = InWith g /\ attempts m = k).
Proof.
  induction k as [|k IH].
  - destruct (step_CallNext (retry delays timeout t0) eq_refl)
      as (Ha & [(r & Hr)|(g & Hg)]); simpl in *; [left|right]; eauto.
    exists r. split; [exact Hr|]. rewrite Ha. reflexivity.
  - cbv zeta in *.
    replace (2 * S k + 1)%nat with (S (S (2 * k + 1))) by lia.
    rewrite !steps_S.
    set (m := run (2 * k + 1) (retry delays timeout t0)) in *.
    destruct IH as [(r & Hr & Ha)|(g & Hg & Ha)].
    + left. exists r. rewrite !(step_Ended _ _ _ m r Hr). split; [exact Hr|lia].
    + destruct (step_InWith m g Hg) as (Ha1 & [(r & Hr)|Hn]).
      * left. exists r.
        rewrite (step_Ended _ _ _ (step1 m) r Hr).
        split; [exact Hr|lia].
      * destruct (step_CallNext (step1 m) Hn) as (Ha2 & [(r & Hr)|(g' & Hg')]).
        -- left. exists r. split; [exact Hr|lia].
        -- right. exists g'. split; [exact Hg'|lia].
Qed.

(** X9: in a run of [retry] with [timeout > 0], around an operation during
    which the clock does not run backwards, with sleeps that last as long
    as asked or longer, and over a schedule whose delays are all at least
    [delta], the loop is over after at most [k] attempts as soon as [k]
    times [delta] reaches the timeout: the time budget bounds the number
    of rounds although the code counts none. *)
Theorem loop_ends_within (delta : Q) (k : nat) :
  (forall i t, t <= fst (body i t)) ->
  (forall i t seconds, 0 <= seconds -> t + seconds <= wakeup i t seconds) ->
  0 < timeout ->
  Forall (fun d => delta <= d) delays ->
  timeout <= inject_Z (Z.of_nat k) * delta ->
  let m := run (2 * k + 1) (retry delays timeout t0) in
  exists r, ctl m = Ended r /\ (attempts m <= k)%nat.
Proof.
  intros Hclock Hsleep Hto Hdelta Hk m.
  destruct (rounds_progress k) as [H|(g & Hg & Ha)]; [exact H|].
  fold m in Hg, Ha. exfalso.
  destruct (clocked_steps Hclock Hsleep delta (2 * k + 1)) as (_ & K2 & K3).
  destruct (books (2 * k + 1)) as ((L1 & _) & _).
  fold m in K2, K3, L1.
  specialize (K2 Hto). specialize (K3 Hdelta).
  rewrite L1, length_scheduled_sleeps in K3.
  unfold suppressed in K3. rewrite Hg, Ha in K3.
  set (x := inject_Z (Z.of_nat k) * delta) in *. lra.
Qed.


(** *** Guards that are never entered *)

Lemma next_or_schedule (k : nat) :
  next_or (skipn (S k) delays) (delay_at delays k)
  = (delay_at delays (S k), skipn (S (S k)) delays).
Proof.
  unfold next_or. destruct (skipn (S k) delays) as [|x r] eqn:Hs.
  - apply skipn_nil_inv in Hs.
    rewrite delay_at_stays by exact Hs.
    rewrite skipn_all2 by lia. reflexivity.
  - apply skipn_cons_inv in Hs. destruct Hs as (Hlt & Hn & Hr).
    rewrite delay_at_inside by exact Hlt. rewrite Hn, Hr. reflexivity.
Qed.

Lemma drain_suspended (n k : nat) (ex : Q) (m : machine exn) :
  frame m = AtYield104 (skipn (S k) delays) ex (delay_at delays k) ->
  go m = [tt] ->
  drain n m
  = map (fun i => GenYield (repeated_attempt (delay_at delays i) ex))
        (seq (S k) n).
Proof.
  revert k m. induction n as [|n IH]; intros k m Hf Hgo; [reflexivity|].
  cbn [drain seq map]. unfold gen_next. rewrite Hf, next_or_schedule, Hgo.
  cbn [while_go]. f_equal. apply IH; [reflexivity|exact Hgo].
Qed.

(** X11: the generator of [retry] stops only through a guard: with
    [timeout > 0] and a schedule that is not empty, a caller who takes
    guards and enters none gets a guard from every [next()], however many,
    each with the delay the schedule has for its round. *)
Theorem unentered_guards_never_end (n : nat) :
  0 < timeout ->
  delays <> [] ->
  drain n (retry (exn := exn) delays timeout t0)
  = map (fun k =>
           GenYield (repeated_attempt
                       (nth (Nat.min k (List.length delays - 1)) delays 0)
                       (t0 + timeout)))
        (seq 0 n).
Proof.
  intros Hto Hne. destruct n as [|n]; [reflexivity|].
  destruct delays as [|d rest] eqn:Hd; [contradiction|]. rewrite <- Hd.
  apply Qltb_true in Hto.
  cbn [drain seq map]. unfold gen_next. cbn [frame retry].
  rewrite Hto. rewrite Hd at 1. cbn [go set_go while_go].
  f_equal; [rewrite Hd; reflexivity|].
  apply drain_suspended; [|reflexivity].
  cbn [frame set_frame]. rewrite Hd. reflexivity.
Qed.

End Books.

(** *** The theorems at the runs of the doctests *)

Section AtDoctestRuns.

Import Doctests.

Ltac computed H :=
  match goal with
  | |- ?A /\ _ =>
      assert (H : A)
        by (vm_compute; first [reflexivity | lia | discriminate]);
      split; [exact H|]
  end.

(** [delays=[0], timeout=.1, predicate=true], no failure. *)
Lemma normal_end_means_success_witness :
  let m := steps true_ succeeding punctual 3 (retry [0] (1 # 10) 0) in
  ctl m = Ended Exhausted /\
  (1 <= attempts m)%nat /\
  exists t t', succeeding (attempts m - 1)%nat t = (t', Returns).
Proof.
  cbv zeta. computed H.
  exact (normal_end_means_success succeeding punctual true_
           [0] (1 # 10) 0 3 H).
Defined.

(** A [KeyboardInterrupt] under [predicate=true], well before the
    deadline. *)
Lemma base_exception_not_caught_witness :
  let m := steps true_ interrupted punctual 1 (retry [0] (1 # 10) 0) in
  ctl m = InWith (repeated_attempt 0 (0 + (1 # 10))) /\
  interrupted (attempts m) (now m)
  = (0 + (4 # 100), Raises KeyboardInterrupt) /\
  is_Exception KeyboardInterrupt = false /\
  ctl (step true_ interrupted punctual m)
  = Ended (Propagated KeyboardInterrupt) /\
  trace (step true_ interrupted punctual m) = trace m.
Proof.
  cbv zeta. computed H1. computed H2. computed H3.
  destruct (base_exception_not_caught interrupted punctual true_
              [0] (1 # 10) 0 1 _ _ _ H1 H2 H3) as (Est & _).
  rewrite Est. split; reflexivity.
Defined.

(** A predicate that raises a [StopIteration] of its own when asked about
    [RuntimeError('foo')]: the caller gets the [RuntimeError] of
    PEP 479. *)
Lemma predicate_failure_propagates_witness :
  let m := steps stopping failing punctual 1 (retry [0] (1 # 10) 0) in
  0 < 1 # 10 /\
  ctl m = InWith (repeated_attempt 0 (0 + (1 # 10))) /\
  failing (attempts m) (now m) = (0 + (4 # 100), Raises foo) /\
  is_Exception foo = true /\
  stopping foo = inl (StopIteration 1) /\
  ctl (step stopping failing punctual m)
  = Ended (CoreRaised
             (generator_raised_StopIteration (Some (StopIteration 1)))).
Proof.
  cbv zeta. computed H1. computed H2. computed H3. computed H4. computed H5.
  destruct (predicate_failure_propagates failing punctual stopping
              [0] (1 # 10) 0 1 _ _ _ _ H1 H2 H3 H4 H5) as (delay & Hg & H).
  injection Hg as <-.
  destruct H as (_ & _ & Hstop & _); [vm_compute; reflexivity|].
  apply Hstop; [reflexivity|discriminate].
Defined.

Lemma failing_clock_forward : forall (k : nat) (t : Q), t <= fst (failing k t).
Proof. intros k t. unfold failing. simpl. lra. Qed.

Lemma late_sleep_lasts :
  forall (k : nat) (t seconds : Q),
    0 <= seconds -> t + seconds <= late k t seconds.
Proof. intros k t seconds _. unfold late. lra. Qed.

(** [delays=[0, 1], timeout=300, predicate=true] around an operation that
    always fails, with sleeps that last 10 ms too long: four rounds in,
    one second has been asked of [time.sleep]. *)
Lemma total_slept_below_timeout_witness :
  let m := steps true_ failing late 7 (retry [0; 1] 300 0) in
  (forall (k : nat) (t : Q), t <= fst (failing k t)) /\
  (forall (k : nat) (t seconds : Q),
     0 <= seconds -> t + seconds <= late k t seconds) /\
  0 < 300 /\
  0 + total_slept m <= now m /\ total_slept m < 300.
Proof.
  cbv zeta. split; [exact failing_clock_forward|].
  split; [exact late_sleep_lasts|]. computed H.
  exact (total_slept_below_timeout failing late true_
           [0; 1] 300 0 failing_clock_forward late_sleep_lasts 7 H).
Defined.

(** Delays of 50 ms against a timeout of 100 ms: over after two
    attempts. *)
Lemma loop_ends_within_witness :
  let m := steps true_ failing late (2 * 2 + 1)
             (retry [1 # 20] (1 # 10) 0) in
  (forall (k : nat) (t : Q), t <= fst (failing k t)) /\
  (forall (k : nat) (t seconds : Q),
     0 <= seconds -> t + seconds <= late k t seconds) /\
  0 < 1 # 10 /\
  Forall (fun d => 1 # 20 <= d) [1 # 20] /\
  1 # 10 <= inject_Z (Z.of_nat 2) * (1 # 20) /\
  exists r, ctl m = Ended r /\ (attempts m <= 2)%nat.
Proof.
  cbv zeta. split; [exact failing_clock_forward|].
  split; [exact late_sleep_lasts|]. computed H1.
  assert (H2 : Forall (fun d => 1 # 20 <= d) [1 # 20]).
  { constructor; [|constructor]. vm_compute. discriminate. }
  split; [exact H2|]. computed H3.
  exact (loop_ends_within failing late true_
           [1 # 20] (1 # 10) 0 (1 # 20) 2 failing_clock_forward
           late_sleep_lasts H1 H2 H3).
Defined.


(** Three calls of [next()] on [retry(delays=[0, 1], timeout=300)]. *)
Lemma unentered_guards_never_end_witness :
  0 < 300 /\
  [0; 1] <> [] /\
  drain 3 (retry (exn := py_exn) [0; 1] 300 0)
  = [GenYield (repeated_attempt 0 (0 + 300));
     GenYield (repeated_attempt 1 (0 + 300));
     GenYield (repeated_attempt 1 (0 + 300))].
Proof.
  computed H1.
  assert (H2 : [0; 1] <> []) by discriminate.
  split; [exact H2|].
  exact (unentered_guards_never_end [0; 1] 300 0 3 H1 H2).
Defined.

End AtDoctestRuns.

End RetryRunsTheory.
